(** * Hero API: a shallow embedding of [main.py]

    The service stores heroes in one table of an SQLite database and exposes
    three FastAPI routes: [create_hero], [read_heroes] and [read_hero].  Every
    route obtains its SQLModel [Session] from the generator [get_session].

    The handlers are embedded as computations in a state-and-exception monad
    over a [World]: the table [hero], the Python [Hero] instances alive in the
    process, and the sessions that are currently open.

    What is taken from the libraries the program calls (and is therefore an
    assumption of this development, written out where it is used):
    - the table is a finite map from the integer primary key to the other
      columns; a row inserted without a key gets the largest key in use plus
      one (1 in an empty table), a row inserted with a key keeps it, and a
      key already in use makes the flush fail with [IntegrityError];
    - a full scan returns rows in key order; [col = value] is never true on
      a NULL column;
    - Python integers are unbounded ([Z]); SQLite's 64-bit range, I/O
      failures and concurrent requests are outside the model. *)

From stdpp Require Import base option list sorting strings gmap.
From Stdlib Require Import ZArith.

Local Open Scope Z_scope.

(** ** Data model *)

(** [class Hero(SQLModel, table=True)] (main.py:9-24).  [id] is
    [Optional[int]], default [None], the primary key of the table; [name] is
    a required [str]; [age] is [Optional[int]], default [None]. *)
Record Hero := mkHero {
  id : option Z;
  name : string;
  age : option Z;
}.

(** A stored row: the columns other than the primary key, which is the key
    of the table map. *)
Record Row := mkRow {
  row_name : string;
  row_age : option Z;
}.

Definition to_row (h : Hero) : Row := mkRow (name h) (age h).

Definition of_row (k : Z) (r : Row) : Hero :=
  mkHero (Some k) (row_name r) (row_age r).

(** Exceptions that can leave a handler. *)
Inductive exn :=
| HTTPException (status_code : Z) (detail : string)
| RequestValidationError
| IntegrityError
| InvalidRequestError.

(** Addresses of Python [Hero] instances and of [Session] instances. *)
Definition loc := nat.
Definition sid := nat.

Record World := mkWorld {
  hero_table : gmap Z Row;       (* table [hero] of database.db *)
  heap : gmap loc Hero;          (* the [Hero] instances *)
  sessions : gmap sid (list loc) (* open sessions, each with its pending objects *)
}.

(** ** The monad of handlers: state and exceptions *)

Inductive result (A : Type) :=
| Return (a : A)
| Raise (e : exn).

Arguments Return {A} a.
Arguments Raise {A} e.

Definition M (A : Type) : Type := World → result A * World.

Global Instance M_ret : MRet M := λ A a w, (Return a, w).

Global Instance M_bind : MBind M := λ A B k c w,
  match c w with
  | (Return a, w') => k a w'
  | (Raise e, w') => (Raise e, w')
  end.

Definition raise {A} (e : exn) : M A := λ w, (Raise e, w).

Fixpoint for_each {A} (f : A → M unit) (l : list A) : M unit :=
  match l with
  | [] => mret tt
  | x :: l' => f x ;; for_each f l'
  end.

(** ** Python truthiness

    [if x:] and [not x] go through [bool(x)]: [None], [0] and the empty
    string are false; an object without [__bool__] and [__len__], such as a
    [Hero], is true. *)
Class Truthy (A : Type) := truthy : A → bool.

Global Instance str_truthy : Truthy string := λ s, bool_decide (s ≠ "").
Global Instance int_truthy : Truthy Z := λ n, bool_decide (n ≠ 0).
Global Instance Hero_truthy : Truthy Hero := λ _, true.
Global Instance Optional_truthy {A} `{Truthy A} : Truthy (option A) := λ o,
  match o with
  | None => false
  | Some a => truthy a
  end.

(** ** The storage layer *)

Definition max_rowid (t : gmap Z Row) : option Z :=
  foldr (λ kr acc, Some (from_option (Z.max kr.1) kr.1 acc)) None (map_to_list t).

(** The key SQLite gives to a row inserted without one. *)
Definition next_rowid (t : gmap Z Row) : Z :=
  match max_rowid t with
  | None => 1
  | Some m => m + 1
  end.

Definition rowid_le (a b : Z * Row) : Prop := a.1 ≤ b.1.

Global Instance rowid_le_dec a b : Decision (rowid_le a b) := Z_le_dec a.1 b.1.

(** The rows of the table as a scan meets them. *)
Definition rows (t : gmap Z Row) : list (Z * Row) :=
  merge_sort rowid_le (map_to_list t).

(** A new [Hero] instance built from the request body. *)
Definition alloc (h : Hero) : M loc := λ w,
  let l := fresh (dom (heap w)) in
  (Return l, mkWorld (hero_table w) (<[l := h]> (heap w)) (sessions w)).

(** The attributes of an instance, read when the response is serialised. *)
Definition deref (l : loc) : M Hero := λ w,
  match heap w !! l with
  | Some h => (Return h, w)
  | None => (Raise InvalidRequestError, w)
  end.

(** [Session(engine).__enter__()] *)
Definition Session_enter : M sid := λ w,
  let s := fresh (dom (sessions w)) in
  (Return s, mkWorld (hero_table w) (heap w) (<[s := []]> (sessions w))).

(** [Session.__exit__]: [session.close()] *)
Definition Session_exit (session : sid) (w : World) : World :=
  mkWorld (hero_table w) (heap w) (delete session (sessions w)).

(** [session.add(hero)]: the object becomes pending. *)
Definition Session_add (session : sid) (hero : loc) : M unit := λ w,
  match sessions w !! session with
  | Some new =>
      let new' := if decide (hero ∈ new) then new else new ++ [hero] in
      (Return tt, mkWorld (hero_table w) (heap w) (<[session := new']> (sessions w)))
  | None => (Raise InvalidRequestError, w)
  end.

(** The INSERT of one pending object.  Without a key the table assigns
    [next_rowid] and the object receives it; with a key the row is stored
    under it unless it is in use. *)
Definition flush_one (hero : loc) : M unit := λ w,
  match heap w !! hero with
  | Some h =>
      match id h with
      | None =>
          let k := next_rowid (hero_table w) in
          (Return tt,
           mkWorld (<[k := to_row h]> (hero_table w))
                   (<[hero := mkHero (Some k) (name h) (age h)]> (heap w))
                   (sessions w))
      | Some k =>
          match hero_table w !! k with
          | None =>
              (Return tt,
               mkWorld (<[k := to_row h]> (hero_table w)) (heap w) (sessions w))
          | Some _ => (Raise IntegrityError, w)
          end
      end
  | None => (Raise InvalidRequestError, w)
  end.

Definition Session_flush (session : sid) : M unit := λ w,
  match sessions w !! session with
  | Some new =>
      match for_each flush_one new w with
      | (Return _, w') =>
          (Return tt,
           mkWorld (hero_table w') (heap w') (<[session := []]> (sessions w')))
      | (Raise e, w') => (Raise e, w')
      end
  | None => (Raise InvalidRequestError, w)
  end.

(** [session.commit()]: flush, then COMMIT; a failed flush rolls the
    transaction back and the exception propagates. *)
Definition Session_commit (session : sid) : M unit := λ w,
  match Session_flush session w with
  | (Return _, w') => (Return tt, w')
  | (Raise e, w') =>
      (Raise e, mkWorld (hero_table w) (heap w') (<[session := []]> (sessions w')))
  end.

(** [session.refresh(hero)]: reload the attributes from the object's row. *)
Definition Session_refresh (session : sid) (hero : loc) : M unit := λ w,
  match heap w !! hero with
  | Some h =>
      match id h with
      | Some k =>
          match hero_table w !! k with
          | Some r =>
              (Return tt,
               mkWorld (hero_table w) (<[hero := of_row k r]> (heap w)) (sessions w))
          | None => (Raise InvalidRequestError, w)
          end
      | None => (Raise InvalidRequestError, w)
      end
  | None => (Raise InvalidRequestError, w)
  end.

(** [session.get(Hero, hero_id)]: the record of the row with that primary
    key, or [None]. *)
Definition Session_get (session : sid) (hero_id : Z) : M (option Hero) := λ w,
  (Return (of_row hero_id <$> hero_table w !! hero_id), w).

(** *** Queries: [select(Hero)] with a chain of [.where(...)] *)

Inductive Clause :=
| Hero_name_eq (v : string)   (* Hero.name == v *)
| Hero_age_eq (v : Z).        (* Hero.age == v *)

Record Select := mkSelect { whereclause : list Clause }.

Definition select_Hero : Select := mkSelect [].

Definition where_ (q : Select) (c : Clause) : Select :=
  mkSelect (whereclause q ++ [c]).

Definition holds (c : Clause) (r : Row) : Prop :=
  match c with
  | Hero_name_eq v => row_name r = v
  | Hero_age_eq v => row_age r = Some v
  end.

Global Instance holds_dec c r : Decision (holds c r).
Proof. destruct c; simpl; apply _. Defined.

Definition selected (q : Select) (kr : Z * Row) : Prop :=
  Forall (λ c, holds c kr.2) (whereclause q).

Global Instance selected_dec q kr : Decision (selected q kr).
Proof. unfold selected. apply _. Defined.

(** [session.exec(query).all()] *)
Definition Session_exec (session : sid) (query : Select) : M (list Hero) := λ w,
  (Return (uncurry of_row <$> filter (selected query) (rows (hero_table w))), w).

(** ** main.py *)

(** [def get_session(): with Session(engine) as session: yield session]
    (main.py:32-40).  FastAPI runs the generator up to its [yield], hands the session to the
    request's scope and resumes the generator when the scope is left, by
    return or by exception; leaving the [with] block closes the session. *)
Definition get_session {A} (scope : sid → M A) : M A := λ w,
  match Session_enter w with
  | (Return session, w1) =>
      let (r, w2) := scope session w1 in
      (r, Session_exit session w2)
  | (Raise e, w1) => (Raise e, w1)
  end.

(** main.py:54-69.  The parameter [hero] is the instance built from the
    body; it is added, committed, refreshed and returned as it is. *)
Definition create_hero (hero : loc) (session : sid) : M loc :=
  Session_add session hero ;;
  Session_commit session ;;
  Session_refresh session hero ;;
  mret hero.

(** [if x: query = query.where(c(x))] for an [Optional] parameter [x]. *)
Definition where_if {A} `{Truthy A}
    (x : option A) (c : A → Clause) (query : Select) : Select :=
  match x with
  | Some v => if truthy x then where_ query (c v) else query
  | None => query
  end.

(** main.py:72-97 *)
Definition read_heroes (name : option string) (age : option Z) (session : sid)
    : M (list Hero) :=
  let query := select_Hero in
  let query := where_if name Hero_name_eq query in
  let query := where_if age Hero_age_eq query in
  heroes ← Session_exec session query;
  mret heroes.

(** main.py:100-119 *)
Definition read_hero (hero_id : Z) (session : sid) : M Hero :=
  hero ← Session_get session hero_id;
  match hero with
  | Some h =>
      if negb (truthy hero) then raise (HTTPException 404 "Hero not found")
      else mret h
  | None => raise (HTTPException 404 "Hero not found")
  end.

(** ** The routes as FastAPI runs them

    For each request FastAPI resolves [Depends(get_session)], validates the
    body, query or path parameters, calls the handler and serialises what
    it returns; the generator is resumed when the request's scope ends. *)

(** A parameter that failed validation is [None]. *)
Definition validate {A} (x : option A) : M A :=
  match x with
  | Some a => mret a
  | None => raise RequestValidationError
  end.

(** POST /heroes/ *)
Definition post_heroes (body : option Hero) : M Hero :=
  get_session (λ session,
    b ← validate body;
    hero ← alloc b;
    r ← create_hero hero session;
    deref r).

(** GET /heroes/ *)
Definition get_heroes (query : option (option string * option Z)) : M (list Hero) :=
  get_session (λ session,
    q ← validate query;
    read_heroes q.1 q.2 session).

(** GET /heroes/{hero_id} *)
Definition get_hero (path : option Z) : M Hero :=
  get_session (λ session,
    hero_id ← validate path;
    read_hero hero_id session).

Inductive Request :=
| POST_heroes (body : option Hero)
| GET_heroes (query : option (option string * option Z))
| GET_hero (path : option Z).

Inductive Json :=
| JHero (h : Hero)
| JList (l : list Hero).

Definition serve (req : Request) : M Json :=
  match req with
  | POST_heroes body => h ← post_heroes body; mret (JHero h)
  | GET_heroes query => l ← get_heroes query; mret (JList l)
  | GET_hero path => h ← get_hero path; mret (JHero h)
  end.

(** The status line of the response. *)
Definition status {A} (r : result A) : Z :=
  match r with
  | Return _ => 200
  | Raise (HTTPException c _) => c
  | Raise RequestValidationError => 422
  | Raise _ => 500
  end.

(** Requests served one after the other. *)
Fixpoint serve_all (reqs : list Request) (w : World) : list (result Json) * World :=
  match reqs with
  | [] => ([], w)
  | req :: reqs' =>
      let (r, w1) := serve req w in
      let (rs, w2) := serve_all reqs' w1 in
      (r :: rs, w2)
  end.

Definition empty_world : World := mkWorld ∅ ∅ ∅.

(** A record is stored when some row of the table is that record. *)
Definition stored (w : World) (h : Hero) : Prop :=
  ∃ k r, hero_table w !! k = Some r ∧ h = of_row k r.

(** Creations served one after the other. *)
Fixpoint create_all (heroes : list Hero) (w : World) : list (result Hero) * World :=
  match heroes with
  | [] => ([], w)
  | hero :: heroes' =>
      let (r, w1) := post_heroes (Some hero) w in
      let (rs, w2) := create_all heroes' w1 in
      (r :: rs, w2)
  end.

(** The identifier carried by the response to a creation. *)
Definition created_id (r : result Hero) : option Z :=
  match r with
  | Return h => id h
  | Raise _ => None
  end.

(** Two requests used in the examples. *)
Definition astra : Hero := mkHero None "Astra" (Some 30).
Definition bolt : Hero := mkHero None "Bolt" None.

(** The world after creating [astra] and [bolt] in an empty database. *)
Definition two_heroes : World := (create_all [astra; bolt] empty_world).2.

(** * Properties *)

(** ** The storage layer *)

Section storage.
Implicit Types (t : gmap Z Row) (k : Z) (r : Row) (w : World).

Lemma max_rowid_foldr_ge (l : list (Z * Row)) k r :
  (k, r) ∈ l →
  ∃ m, foldr (λ kr acc, Some (from_option (Z.max kr.1) kr.1 acc)) None l = Some m
       ∧ k ≤ m.
Proof.
  induction l as [|[k' r'] l IH]; intros Hin.
  - by apply elem_of_nil in Hin.
  - apply elem_of_cons in Hin as [Heq|Hin]; simpl.
    + injection Heq as <- <-.
      destruct (foldr _ None l) as [m|]; simpl; eexists; split; eauto; lia.
    + destruct (IH Hin) as (m & -> & Hle); simpl.
      eexists; split; eauto; lia.
Qed.

(** The key given to a new row is above every key in use, hence free. *)
Lemma lookup_lt_next_rowid t k r : t !! k = Some r → k < next_rowid t.
Proof.
  intros Hk. apply elem_of_map_to_list in Hk.
  destruct (max_rowid_foldr_ge _ _ _ Hk) as (m & Hm & Hle).
  unfold next_rowid, max_rowid. rewrite Hm. lia.
Qed.

Lemma next_rowid_fresh t : t !! next_rowid t = None.
Proof.
  destruct (t !! next_rowid t) as [r|] eqn:E; [|done].
  apply lookup_lt_next_rowid in E. lia.
Qed.

Lemma next_rowid_empty : next_rowid ∅ = 1.
Proof. reflexivity. Qed.

#[local] Instance rowid_le_trans : Transitive rowid_le.
Proof. unfold rowid_le. intros x y z ??. lia. Qed.

#[local] Instance rowid_le_total : Total rowid_le.
Proof. unfold rowid_le. intros x y. lia. Qed.

Lemma elem_of_rows t k r : (k, r) ∈ rows t ↔ t !! k = Some r.
Proof.
  unfold rows. rewrite merge_sort_Permutation. apply elem_of_map_to_list.
Qed.

Lemma NoDup_rows t : NoDup (rows t).
Proof.
  unfold rows. rewrite merge_sort_Permutation. apply NoDup_map_to_list.
Qed.

Lemma length_rows t : length (rows t) = size t.
Proof.
  unfold rows. by rewrite merge_sort_Permutation, length_map_to_list.
Qed.

Lemma rows_sorted t : StronglySorted rowid_le (rows t).
Proof. apply StronglySorted_merge_sort; apply _. Qed.

Lemma of_row_inj k r k' r' : of_row k r = of_row k' r' → (k, r) = (k', r').
Proof. destruct r, r'. by intros [= -> -> ->]. Qed.

Lemma of_row_to_row (h : Hero) k : id h = Some k → of_row k (to_row h) = h.
Proof. destruct h; simpl; by intros ->. Qed.

Lemma fresh_session w : sessions w !! fresh (dom (sessions w)) = None.
Proof. apply not_elem_of_dom, is_fresh. Qed.

(** What a query returns: the records of the rows on which every clause
    holds. *)
Lemma elem_of_exec (q : Select) t (h : Hero) :
  h ∈ uncurry of_row <$> filter (selected q) (rows t) ↔
  ∃ k r, t !! k = Some r ∧ h = of_row k r ∧ Forall (λ c, holds c r) (whereclause q).
Proof.
  rewrite list_elem_of_fmap. split.
  - intros ([k r] & -> & Hin). apply list_elem_of_filter in Hin as [Hsel Hin].
    apply elem_of_rows in Hin. by exists k, r.
  - intros (k & r & Hk & -> & Hq). exists (k, r). split; [done|].
    apply list_elem_of_filter. split; [done|]. by apply elem_of_rows.
Qed.

Lemma NoDup_exec (q : Select) t :
  NoDup (uncurry of_row <$> filter (selected q) (rows t)).
Proof.
  apply NoDup_fmap_2_strong.
  - intros [k r] [k' r'] _ _. apply of_row_inj.
  - apply NoDup_filter, NoDup_rows.
Qed.

Lemma filter_select_Hero (l : list (Z * Row)) :
  filter (selected select_Hero) l = l.
Proof.
  induction l as [|kr l IH]; [done|].
  rewrite filter_cons_True by constructor. by rewrite IH.
Qed.

Lemma elem_of_unfiltered w (h : Hero) :
  h ∈ uncurry of_row <$> filter (selected select_Hero) (rows (hero_table w)) ↔
  stored w h.
Proof.
  rewrite elem_of_exec. unfold stored. simpl.
  split; [intros (k & r & ? & ? & _)|intros (k & r & ? & ?)]; exists k, r; auto.
Qed.

End storage.

(** ** Truthiness of the query parameters *)

Lemma where_if_zero (q : Select) : where_if (Some 0) Hero_age_eq q = q.
Proof. reflexivity. Qed.

Lemma where_if_empty (q : Select) : where_if (Some "") Hero_name_eq q = q.
Proof. reflexivity. Qed.

Lemma where_if_truthy {A} `{Truthy A} (v : A) (c : A → Clause) (q : Select) :
  truthy v = true → where_if (Some v) c q = where_ q (c v).
Proof.
  intros Hv. unfold where_if.
  change (truthy (Some v)) with (truthy v). by rewrite Hv.
Qed.

(** ** The handlers *)

(** Unfolds the monad and simplifies the lookups met on the way. *)
Ltac run :=
  repeat (progress (unfold mbind, M_bind, mret, M_ret, raise, validate;
                    cbn beta iota delta [fst snd hero_table heap sessions for_each];
                    simplify_map_eq)).

Lemma create_hero_run (hero : loc) (session : sid) (h : Hero) (w : World) :
  heap w !! hero = Some h → sessions w !! session = Some [] →
  create_hero hero session w =
    match id h with
    | None =>
        (Return hero,
         mkWorld (<[next_rowid (hero_table w) := to_row h]> (hero_table w))
                 (<[hero := mkHero (Some (next_rowid (hero_table w))) (name h) (age h)]>
                    (heap w))
                 (sessions w))
    | Some k =>
        match hero_table w !! k with
        | None =>
            (Return hero,
             mkWorld (<[k := to_row h]> (hero_table w)) (heap w) (sessions w))
        | Some _ => (Raise IntegrityError, w)
        end
    end.
Proof.
  intros Hh Hs. destruct w as [t hp ss]; simpl in *.
  unfold create_hero, Session_add. run.
  unfold Session_commit, Session_flush, flush_one. run.
  destruct h as [[k|] n a]; simpl.
  - destruct (t !! k) as [r|] eqn:Ek; run.
    + by rewrite insert_insert_eq, (insert_id ss).
    + unfold Session_refresh. run.
      by rewrite insert_insert_eq, (insert_id ss), (insert_id hp).
  - unfold Session_refresh. run.
    by rewrite !insert_insert_eq, (insert_id ss).
Qed.

Lemma read_heroes_run name age session (w : World) :
  read_heroes name age session w =
    (Return (uncurry of_row <$>
       filter (selected (where_if age Hero_age_eq
                          (where_if name Hero_name_eq select_Hero)))
              (rows (hero_table w))), w).
Proof. reflexivity. Qed.

Lemma read_hero_run hero_id session (w : World) :
  read_hero hero_id session w =
    (match hero_table w !! hero_id with
     | Some r => Return (of_row hero_id r)
     | None => Raise (HTTPException 404 "Hero not found")
     end, w).
Proof.
  unfold read_hero, Session_get. run. by destruct (hero_table w !! hero_id).
Qed.

(** ** The routes *)

(** A scope that leaves the state as it found it: entering and leaving
    the session cancel out. *)
Lemma get_session_pure {A} (a : result A) (w : World) :
  get_session (λ _ w', (a, w')) w = (a, w).
Proof.
  pose proof (fresh_session w) as Hs. destruct w as [t hp ss]; simpl in *.
  unfold get_session, Session_enter, Session_exit; simpl.
  by rewrite delete_insert_eq, delete_id.
Qed.

Lemma get_session_closes {A} (scope : sid → M A) (w : World) :
  sessions (get_session scope w).2 !! fresh (dom (sessions w)) = None.
Proof.
  unfold get_session, Session_enter.
  destruct (scope _ _) as [r w2]. simpl. apply lookup_delete_eq.
Qed.

Lemma post_heroes_run (hero : Hero) (w : World) :
  post_heroes (Some hero) w =
    match id hero with
    | None =>
        (Return (mkHero (Some (next_rowid (hero_table w))) (name hero) (age hero)),
         mkWorld (<[next_rowid (hero_table w) := to_row hero]> (hero_table w))
                 (<[fresh (dom (heap w)) :=
                      mkHero (Some (next_rowid (hero_table w))) (name hero) (age hero)]>
                    (heap w))
                 (sessions w))
    | Some k =>
        match hero_table w !! k with
        | None =>
            (Return hero,
             mkWorld (<[k := to_row hero]> (hero_table w))
                     (<[fresh (dom (heap w)) := hero]> (heap w))
                     (sessions w))
        | Some _ =>
            (Raise IntegrityError,
             mkWorld (hero_table w) (<[fresh (dom (heap w)) := hero]> (heap w))
                     (sessions w))
        end
    end.
Proof.
  pose proof (fresh_session w) as Hs. destruct w as [t hp ss]; simpl in *.
  unfold post_heroes, get_session, Session_enter, alloc. run.
  rewrite (create_hero_run _ _ hero) by (simpl; by simplify_map_eq). simpl.
  unfold Session_exit, deref. destruct hero as [[k|] n a]; simpl.
  - destruct (t !! k) as [r|] eqn:Ek; run;
      by rewrite delete_insert_eq, delete_id.
  - run. by rewrite insert_insert_eq, delete_insert_eq, delete_id.
Qed.

Lemma post_heroes_invalid (w : World) :
  post_heroes None w = (Raise RequestValidationError, w).
Proof. apply (get_session_pure (Raise _)). Qed.

Lemma get_heroes_run name age (w : World) :
  get_heroes (Some (name, age)) w = read_heroes name age 0%nat w.
Proof. unfold get_heroes. apply (get_session_pure (Return _)). Qed.

Lemma get_heroes_invalid (w : World) :
  get_heroes None w = (Raise RequestValidationError, w).
Proof. apply (get_session_pure (Raise _)). Qed.

Lemma get_hero_run hero_id (w : World) :
  get_hero (Some hero_id) w = read_hero hero_id 0%nat w.
Proof.
  pose proof (fresh_session w) as Hs. destruct w as [t hp ss]; simpl in *.
  unfold get_hero, get_session, Session_enter. run.
  rewrite !read_hero_run. unfold Session_exit; simpl.
  by rewrite delete_insert_eq, delete_id.
Qed.

Lemma get_hero_invalid (w : World) :
  get_hero None w = (Raise RequestValidationError, w).
Proof. apply (get_session_pure (Raise _)). Qed.

Create Rewrite HintDb routes.

Hint Rewrite post_heroes_run post_heroes_invalid
  get_heroes_run get_heroes_invalid read_heroes_run
  get_hero_run get_hero_invalid read_hero_run : routes.

(** What a successful creation leaves behind: the returned record has a
    key that was free, is stored under it, and no other row changed. *)
Lemma post_heroes_Return (hero h : Hero) (w w' : World) :
  post_heroes (Some hero) w = (Return h, w') →
  ∃ k, id h = Some k ∧ name h = name hero ∧ age h = age hero
       ∧ hero_table w !! k = None
       ∧ hero_table w' = <[k := to_row hero]> (hero_table w)
       ∧ (id hero = None → k = next_rowid (hero_table w)).
Proof.
  rewrite post_heroes_run. destruct hero as [[k|] n a]; simpl.
  - destruct (hero_table w !! k) eqn:Ek; [done|].
    intros [= <- <-]. by exists k.
  - intros [= <- <-]. exists (next_rowid (hero_table w)).
    by rewrite next_rowid_fresh.
Qed.

(** A creation fails only on a key that is in use, and then stores nothing. *)
Lemma post_heroes_Raise (hero : Hero) (e : exn) (w w' : World) :
  post_heroes (Some hero) w = (Raise e, w') →
  e = IntegrityError ∧ hero_table w' = hero_table w
  ∧ ∃ k, id hero = Some k ∧ is_Some (hero_table w !! k).
Proof.
  rewrite post_heroes_run. destruct hero as [[k|] n a]; simpl; [|done].
  destruct (hero_table w !! k) eqn:Ek; [|done].
  intros [= <- <-]. eauto.
Qed.

Lemma post_heroes_mono (body : option Hero) (w : World) k r :
  hero_table w !! k = Some r → hero_table (post_heroes body w).2 !! k = Some r.
Proof.
  intros Hk. destruct body as [hero|]; [|by rewrite post_heroes_invalid].
  destruct (post_heroes (Some hero) w) as [[h|e] w'] eqn:E; simpl.
  - apply post_heroes_Return in E as (k' & _ & _ & _ & Hfree & -> & _).
    rewrite lookup_insert_ne; [done|]. by intros ->; simplify_eq.
  - apply post_heroes_Raise in E as (_ & -> & _). done.
Qed.

Lemma post_heroes_sessions (body : option Hero) (w : World) :
  sessions (post_heroes body w).2 = sessions w.
Proof.
  destruct body as [hero|]; autorewrite with routes; [|done].
  destruct (id hero) as [k|]; [|done]. by destruct (hero_table w !! k).
Qed.

(** ** Sequences of requests *)

Lemma serve_run (req : Request) (w : World) :
  serve req w =
    match req with
    | POST_heroes body =>
        match post_heroes body w with
        | (Return h, w') => (Return (JHero h), w')
        | (Raise e, w') => (Raise e, w')
        end
    | GET_heroes query =>
        match get_heroes query w with
        | (Return l, w') => (Return (JList l), w')
        | (Raise e, w') => (Raise e, w')
        end
    | GET_hero path =>
        match get_hero path w with
        | (Return h, w') => (Return (JHero h), w')
        | (Raise e, w') => (Raise e, w')
        end
    end.
Proof. by destruct req. Qed.

(** The two reading routes leave the state as it was. *)
Lemma serve_GET (req : Request) (w : World) :
  (∀ body, req ≠ POST_heroes body) → (serve req w).2 = w.
Proof.
  intros Hget. rewrite serve_run.
  destruct req as [body|[[n a]|]|[i|]]; autorewrite with routes; try done.
  - by destruct (Hget body).
  - by destruct (hero_table w !! i).
Qed.

Lemma serve_table_mono (req : Request) (w : World) k r :
  hero_table w !! k = Some r → hero_table (serve req w).2 !! k = Some r.
Proof.
  intros Hk. destruct req as [body|query|path];
    [|by rewrite serve_GET..].
  rewrite serve_run. pose proof (post_heroes_mono body w k r Hk) as H.
  by destruct (post_heroes body w) as [[h|e] w'].
Qed.

Lemma serve_sessions (req : Request) (w : World) :
  sessions (serve req w).2 = sessions w.
Proof.
  destruct req as [body|query|path]; [|by rewrite serve_GET..].
  rewrite serve_run. pose proof (post_heroes_sessions body w) as H.
  by destruct (post_heroes body w) as [[h|e] w'].
Qed.

Lemma serve_all_table_mono (reqs : list Request) (w : World) k r :
  hero_table w !! k = Some r → hero_table (serve_all reqs w).2 !! k = Some r.
Proof.
  revert w. induction reqs as [|req reqs IH]; intros w Hk; [done|].
  simpl. pose proof (serve_table_mono req w k r Hk) as H1.
  destruct (serve req w) as [r1 w1]. specialize (IH w1 H1).
  by destruct (serve_all reqs w1) as [rs w2].
Qed.

Lemma stored_mono (reqs : list Request) (w : World) (h : Hero) :
  stored w h → stored (serve_all reqs w).2 h.
Proof.
  intros (k & r & Hk & ->). exists k, r. split; [|done].
  by apply serve_all_table_mono.
Qed.

(** A record carried by a response is stored when the response leaves. *)
Lemma serve_JHero_stored (req : Request) (w : World) (h : Hero) :
  (serve req w).1 = Return (JHero h) → stored (serve req w).2 h.
Proof.
  rewrite serve_run. destruct req as [[hero|]|[[n a]|]|[i|]].
  - destruct (post_heroes (Some hero) w) as [[h'|e] w'] eqn:E; simpl; [|done].
    intros [= ->]. apply post_heroes_Return in E as (k & Hid & Hn & Ha & _ & Ht & _).
    exists k, (to_row hero). rewrite Ht, lookup_insert_eq. split; [done|].
    destruct h; simpl in *. by subst.
  - by autorewrite with routes.
  - by autorewrite with routes.
  - by autorewrite with routes.
  - autorewrite with routes.
    destruct (hero_table w !! i) as [r|] eqn:Ei; simpl; [|done].
    intros [= <-]. by exists i, r.
  - by autorewrite with routes.
Qed.

Lemma serve_all_JHero_stored (reqs : list Request) (w : World) (h : Hero) :
  Return (JHero h) ∈ (serve_all reqs w).1 → stored (serve_all reqs w).2 h.
Proof.
  revert w. induction reqs as [|req reqs IH]; intros w; simpl.
  - by intros ?%elem_of_nil.
  - pose proof (serve_JHero_stored req w h) as H1.
    destruct (serve req w) as [r1 w1]. specialize (IH w1).
    pose proof (stored_mono reqs w1 h) as H2.
    destruct (serve_all reqs w1) as [rs w2]. simpl in *.
    intros [<-|Hin]%elem_of_cons; auto.
Qed.

(** ** Sequences of creations *)






(** ** Listing with both filters *)

(** With a non-empty name and a non-zero age the listing is the conjunction
    of the two equalities. *)
Lemma read_heroes_both_truthy (w : World) (n : string) (a : Z) (session : sid) :
  n ≠ "" → a ≠ 0 →
  ∃ l, read_heroes (Some n) (Some a) session w = (Return l, w)
       ∧ ∀ h, h ∈ l ↔ stored w h ∧ name h = n ∧ age h = Some a.
Proof.
  intros Hn Ha. eexists. split; [apply read_heroes_run|].
  rewrite (where_if_truthy n), (where_if_truthy a)
    by (by apply bool_decide_eq_true_2).
  intros h. rewrite elem_of_exec. unfold stored. simpl. split.
  - intros (k & r & Hk & -> & Hq).
    apply Forall_cons in Hq as [Hname Hq]. apply Forall_cons in Hq as [Hage _].
    simpl in *. eauto 10.
  - intros ((k & r & Hk & ->) & Hname & Hage). exists k, r.
    repeat split; [done|]. by repeat constructor.
Qed.

(** ** The example state *)

Lemma two_heroes_table :
  hero_table two_heroes
    = <[1 := mkRow "Astra" (Some 30)]> (<[2 := mkRow "Bolt" None]> ∅).
Proof. by vm_compute. Qed.

Lemma stored_astra : stored two_heroes (mkHero (Some 1) "Astra" (Some 30)).
Proof. exists 1, (mkRow "Astra" (Some 30)). by rewrite two_heroes_table. Qed.

Lemma stored_bolt : stored two_heroes (mkHero (Some 2) "Bolt" None).
Proof. exists 2, (mkRow "Bolt" None). by rewrite two_heroes_table. Qed.

(** ** What a listing returns *)

(** The clauses of the query that [read_heroes] builds: one per parameter
    that is true as a Python condition. *)
Lemma whereclause_read_heroes (qname : option string) (qage : option Z) :
  whereclause (where_if qage Hero_age_eq (where_if qname Hero_name_eq select_Hero))
  = (if truthy qname then Hero_name_eq <$> option_list qname else [])
    ++ (if truthy qage then Hero_age_eq <$> option_list qage else []).
Proof.
  destruct qname as [n|], qage as [a|]; unfold where_if; simpl;
    change (truthy (Some ?v)) with (truthy v); repeat case_match; done.
Qed.

Lemma truthy_str (n : string) : truthy n = true ↔ n ≠ "".
Proof. apply bool_decide_eq_true. Qed.

Lemma truthy_int (a : Z) : truthy a = true ↔ a ≠ 0.
Proof. apply bool_decide_eq_true. Qed.

(** A record is listed exactly when it is stored and passes each filter
    whose parameter is neither absent nor false as a Python condition. *)
Lemma elem_of_read_heroes
    (w : World) (qname : option string) (qage : option Z) (h : Hero) :
  h ∈ uncurry of_row <$>
        filter (selected (where_if qage Hero_age_eq
                           (where_if qname Hero_name_eq select_Hero)))
               (rows (hero_table w))
  ↔ stored w h
    ∧ (∀ n, qname = Some n → n ≠ "" → name h = n)
    ∧ (∀ a, qage = Some a → a ≠ 0 → age h = Some a).
Proof.
  rewrite elem_of_exec, whereclause_read_heroes. unfold stored.
  setoid_rewrite Forall_app. split.
  - intros (k & r & Hk & -> & Hn & Ha). split; [eauto|]. split.
    + intros n -> Hne. change (truthy (Some n)) with (truthy n) in Hn.
      apply truthy_str in Hne. rewrite Hne in Hn. simpl in Hn.
      rewrite Forall_singleton in Hn. exact Hn.
    + intros a -> Hne. change (truthy (Some a)) with (truthy a) in Ha.
      apply truthy_int in Hne. rewrite Hne in Ha. simpl in Ha.
      rewrite Forall_singleton in Ha. exact Ha.
  - intros ((k & r & Hk & ->) & Hn & Ha). exists k, r.
    split; [done|]. split; [done|]. split.
    + destruct qname as [n|]; [|constructor].
      change (truthy (Some n)) with (truthy n).
      destruct (truthy n) eqn:E; [|constructor].
      apply Forall_singleton, (Hn n); [done|]. by apply truthy_str.
    + destruct qage as [a|]; [|constructor].
      change (truthy (Some a)) with (truthy a).
      destruct (truthy a) eqn:E; [|constructor].
      apply Forall_singleton, (Ha a); [done|]. by apply truthy_int.
Qed.

Lemma stored_id (w : World) (h : Hero) (k : Z) :
  stored w h ∧ id h = Some k ↔ ∃ r, hero_table w !! k = Some r ∧ h = of_row k r.
Proof.
  unfold stored. split.
  - intros ((k' & r & Hk & ->) & [= ->]). eauto.
  - intros (r & Hk & ->). eauto.
Qed.

(** * The claims *)

(** ** Listing *)

(** C1: a list request whose [age] parameter is 0 is answered as if the
    parameter were absent, in every state and whatever the [name]
    parameter: the handler and the route return the same list, and a stored
    record is in it whenever it passes the name filter, whatever its age. *)
Theorem read_heroes_age_zero_is_absent
    (w : World) (qname : option string) (session : sid) :
  read_heroes qname (Some 0) session w = read_heroes qname None session w
  ∧ get_heroes (Some (qname, Some 0)) w = get_heroes (Some (qname, None)) w
  ∧ ∃ l, read_heroes qname (Some 0) session w = (Return l, w)
         ∧ ∀ h, h ∈ l ↔
             stored w h ∧ (∀ n, qname = Some n → n ≠ "" → name h = n).
Proof.
  split; [done|]. split; [by rewrite !get_heroes_run|].
  rewrite read_heroes_run. eexists. split; [done|].
  intros h. rewrite elem_of_read_heroes. split.
  - by intros (Hs & Hn & _).
  - intros [Hs Hn]. repeat split; [done..|]. by intros a [= <-].
Qed.

Lemma read_heroes_age_zero_is_absent_witness :
  stored two_heroes (mkHero (Some 1) "Astra" (Some 30))
  ∧ ∃ l, read_heroes None (Some 0) 0%nat two_heroes = (Return l, two_heroes)
         ∧ mkHero (Some 1) "Astra" (Some 30) ∈ l.
Proof.
  split; [exact stored_astra|].
  destruct (proj2 (proj2 (read_heroes_age_zero_is_absent two_heroes None 0%nat)))
    as (l & El & Hl).
  exists l. split; [exact El|]. apply Hl.
  split; [exact stored_astra|]. intros n Hn. discriminate Hn.
Defined.



(** C6, at the failing input: with [name="Astra"] and [age=0] both present,
    the listing of a table holding Astra aged 30 returns that record,
    although its age is not 0; so the records returned when both parameters
    are present do not all satisfy both equalities. *)
Theorem read_heroes_both_present_zero_age :
  (get_heroes (Some (Some "Astra", Some 0)) two_heroes).1
    = Return [mkHero (Some 1) "Astra" (Some 30)]
  ∧ ¬ (∀ w n a l, (get_heroes (Some (Some n, Some a)) w).1 = Return l →
         ∀ h, h ∈ l → name h = n ∧ age h = Some a).
Proof.
  assert ((get_heroes (Some (Some "Astra", Some 0)) two_heroes).1
    = Return [mkHero (Some 1) "Astra" (Some 30)]) as E by (by vm_compute).
  split; [exact E|]. intros Hclaim.
  destruct (Hclaim _ _ _ _ E (mkHero (Some 1) "Astra" (Some 30))) as [_ Hage];
    [by left|done].
Qed.

(** C7: with neither [name] nor [age] present the listing is every stored
    record, each once, and the state is left as it was; after any sequence
    of requests every record a response carried, the created ones among
    them, is in the unfiltered listing. *)
Theorem read_heroes_unfiltered_is_everything (w : World) :
  (∃ l, get_heroes (Some (None, None)) w = (Return l, w)
        ∧ (∀ session, read_heroes None None session w = (Return l, w))
        ∧ (∀ h, h ∈ l ↔ stored w h)
        ∧ NoDup l
        ∧ length l = size (hero_table w))
  ∧ ∀ reqs h, Return (JHero h) ∈ (serve_all reqs w).1 →
      ∃ l, (get_heroes (Some (None, None)) (serve_all reqs w).2).1 = Return l
           ∧ h ∈ l.
Proof.
  split.
  - eexists. split; [by autorewrite with routes|]. split; [done|].
    split; [apply elem_of_unfiltered|]. split; [apply NoDup_exec|].
    simpl. by rewrite length_fmap, filter_select_Hero, length_rows.
  - intros reqs h Hin. autorewrite with routes. eexists. split; [done|].
    by apply elem_of_unfiltered, serve_all_JHero_stored.
Qed.

Lemma read_heroes_unfiltered_is_everything_witness :
  Return (JHero (mkHero (Some 1) "Astra" (Some 30)))
    ∈ (serve_all [POST_heroes (Some astra); POST_heroes (Some bolt)] empty_world).1
  ∧ ∃ l, (get_heroes (Some (None, None))
            (serve_all [POST_heroes (Some astra); POST_heroes (Some bolt)]
               empty_world).2).1 = Return l
         ∧ mkHero (Some 1) "Astra" (Some 30) ∈ l.
Proof.
  assert (Return (JHero (mkHero (Some 1) "Astra" (Some 30)))
    ∈ (serve_all [POST_heroes (Some astra); POST_heroes (Some bolt)] empty_world).1)
    as Hin by (vm_compute; left).
  split; [exact Hin|].
  exact (proj2 (read_heroes_unfiltered_is_everything empty_world) _ _ Hin).
Defined.

(** ** Reading one hero *)



(** ** Creating *)




(** C4: after a successful creation, reading the returned identifier gives
    back the returned record, whose name and age are those of the request,
    and leaves the state as it was. *)
Theorem read_after_create (w w' : World) (hero h : Hero) :
  post_heroes (Some hero) w = (Return h, w') →
  ∃ k, id h = Some k
       ∧ get_hero (Some k) w' = (Return h, w')
       ∧ (∀ session, read_hero k session w' = (Return h, w'))
       ∧ name h = name hero ∧ age h = age hero.
Proof.
  intros E. apply post_heroes_Return in E as (k & Hid & Hn & Ha & _ & Ht & _).
  exists k. rewrite get_hero_run. setoid_rewrite read_hero_run.
  rewrite Ht, lookup_insert_eq.
  assert (of_row k (to_row hero) = h) as ->; [|done].
  destruct h, hero; simpl in *. by subst.
Qed.

Lemma read_after_create_witness :
  post_heroes (Some astra) empty_world
    = (Return (mkHero (Some 1) "Astra" (Some 30)),
       (post_heroes (Some astra) empty_world).2)
  ∧ ∃ k, id (mkHero (Some 1) "Astra" (Some 30)) = Some k
         ∧ get_hero (Some k) (post_heroes (Some astra) empty_world).2
           = (Return (mkHero (Some 1) "Astra" (Some 30)),
              (post_heroes (Some astra) empty_world).2)
         ∧ (∀ session, read_hero k session (post_heroes (Some astra) empty_world).2
              = (Return (mkHero (Some 1) "Astra" (Some 30)),
                 (post_heroes (Some astra) empty_world).2))
         ∧ name (mkHero (Some 1) "Astra" (Some 30)) = name astra
         ∧ age (mkHero (Some 1) "Astra" (Some 30)) = age astra.
Proof.
  assert (post_heroes (Some astra) empty_world
    = (Return (mkHero (Some 1) "Astra" (Some 30)),
       (post_heroes (Some astra) empty_world).2)) as E
    by (vm_compute; reflexivity).
  split; [exact E|].
  exact (read_after_create empty_world _ astra _ E).
Defined.




(** ** The session *)

(** C9: whatever the scope does and however it is left, the session that
    [get_session] yielded is closed afterwards; for each of the three
    routes and every request, valid or not, answered or failed, the open
    sessions after the request are those open before it. *)
Theorem session_released_on_every_path (w : World) :
  (∀ (A : Type) (scope : sid → M A),
     sessions (get_session scope w).2 !! fresh (dom (sessions w)) = None)
  ∧ ∀ req, sessions (serve req w).2 = sessions w.
Proof.
  split; [intros A scope; apply get_session_closes|].
  intros req. apply serve_sessions.
Qed.

(** The four ways out of a request, and no session left open after them. *)
Example exit_paths :
  status <$> (serve_all [POST_heroes (Some astra); POST_heroes None;
                         POST_heroes (Some (mkHero (Some 1) "Bolt" None));
                         GET_hero (Some 9)] empty_world).1
    = [200; 422; 500; 404]
  ∧ sessions (serve_all [POST_heroes (Some astra); POST_heroes None;
                         POST_heroes (Some (mkHero (Some 1) "Bolt" None));
                         GET_hero (Some 9)] empty_world).2 = ∅.
Proof. by vm_compute. Qed.

(** * Further properties of the handlers *)

(** ** Listing *)





(** X4: reading changes nothing.  Any sequence of GET requests, whatever
    their parameters and whether or not they pass validation, leaves the
    table, the instances and the open sessions as they were. *)
Theorem reads_change_nothing (w : World) (reqs : list Request) :
  (∀ body, POST_heroes body ∉ reqs) → (serve_all reqs w).2 = w.
Proof.
  induction reqs as [|req reqs IH]; intros Hget; [done|]. simpl.
  rewrite (surjective_pairing (serve req w)).
  rewrite serve_GET by (intros body ->; apply (Hget body); left).
  rewrite (surjective_pairing (serve_all reqs w)). simpl.
  apply IH. intros body Hin. apply (Hget body). by right.
Qed.

Lemma reads_change_nothing_witness :
  (∀ body, POST_heroes body ∉
     [GET_heroes (Some (Some "Astra", None)); GET_hero (Some 9);
      GET_heroes None; GET_hero (Some 1)])
  ∧ (serve_all [GET_heroes (Some (Some "Astra", None)); GET_hero (Some 9);
                GET_heroes None; GET_hero (Some 1)] two_heroes).2 = two_heroes.
Proof.
  assert (∀ body, POST_heroes body ∉
     [GET_heroes (Some (Some "Astra", None)); GET_hero (Some 9);
      GET_heroes None; GET_hero (Some 1)]) as Hget.
  { intros body Hin. repeat (apply elem_of_cons in Hin as [Hin|Hin];
      [discriminate Hin|]). by apply elem_of_nil in Hin. }
  split; [exact Hget|]. exact (reads_change_nothing two_heroes _ Hget).
Defined.

(** ** Creating and reading back *)





(** X5: no request changes or removes a stored record.  After any sequence
    of requests a record that was stored is still stored, and reading its
    identifier returns it. *)
Theorem stored_records_persist
    (w : World) (reqs : list Request) (h : Hero) (k : Z) :
  stored w h → id h = Some k →
  stored (serve_all reqs w).2 h
  ∧ get_hero (Some k) (serve_all reqs w).2 = (Return h, (serve_all reqs w).2).
Proof.
  intros Hs Hid. pose proof (stored_mono reqs w h Hs) as Hs'.
  split; [done|]. autorewrite with routes.
  destruct (proj1 (stored_id _ h k) (conj Hs' Hid)) as (r & -> & ->). done.
Qed.

Lemma stored_records_persist_witness :
  (stored two_heroes (mkHero (Some 2) "Bolt" None)
   ∧ id (mkHero (Some 2) "Bolt" None) = Some 2)
  ∧ stored
      (serve_all [POST_heroes (Some (mkHero (Some 2) "Cid" (Some 7)));
                  POST_heroes (Some astra); GET_heroes None] two_heroes).2
      (mkHero (Some 2) "Bolt" None)
  ∧ get_hero (Some 2)
      (serve_all [POST_heroes (Some (mkHero (Some 2) "Cid" (Some 7)));
                  POST_heroes (Some astra); GET_heroes None] two_heroes).2
    = (Return (mkHero (Some 2) "Bolt" None),
       (serve_all [POST_heroes (Some (mkHero (Some 2) "Cid" (Some 7)));
                   POST_heroes (Some astra); GET_heroes None] two_heroes).2).
Proof.
  split; [split; [exact stored_bolt|reflexivity]|].
  exact (stored_records_persist two_heroes _ _ 2 stored_bolt eq_refl).
Defined.

(** X6: the table grows by one row for each creation that succeeds and by
    none for one that fails. *)
Theorem rows_grow_by_successes (w : World) (heroes : list Hero) :
  size (hero_table (create_all heroes w).2)
  = (size (hero_table w) + length (omap created_id (create_all heroes w).1))%nat.
Proof.
  revert w. induction heroes as [|hero heroes IH]; intros w; simpl; [lia|].
  destruct (post_heroes (Some hero) w) as [[h|e] w1] eqn:E.
  - apply post_heroes_Return in E as (k1 & Hid & _ & _ & Hfree & Ht & _).
    specialize (IH w1). destruct (create_all heroes w1) as [rs w2].
    simpl in *. rewrite Hid. simpl.
    rewrite IH, Ht, map_size_insert_None by done. unfold omap. lia.
  - apply post_heroes_Raise in E as (_ & Ht & _).
    specialize (IH w1). destruct (create_all heroes w1) as [rs w2].
    simpl in *. by rewrite IH, Ht.
Qed.









(** ** Sessions over a sequence of requests *)

(** X11: sessions do not pile up.  After any sequence of requests,
    whatever their outcomes, the open sessions are those open before the
    first one. *)
Theorem no_session_leak (w : World) (reqs : list Request) :
  sessions (serve_all reqs w).2 = sessions w.
Proof.
  revert w. induction reqs as [|req reqs IH]; intros w; [done|]. simpl.
  pose proof (serve_sessions req w) as H1.
  destruct (serve req w) as [r w1]. specialize (IH w1).
  destruct (serve_all reqs w1) as [rs w2]. simpl in *. congruence.
Qed.
